(** * SkyWay JS SDK: [src/util/index.js]

    A shallow embedding of the [Util] singleton: the signalling message
    enumerations, the configuration constants, the browser probe, the two
    format validators, the random identifiers and [joinArrayBuffers].

    JavaScript strings are sequences of UTF-16 code units; a code unit is a
    natural number and a string is a list of them, so that the theorems
    range over every string and not only over Latin-1 ones. *)

From Stdlib Require Import Ascii String.
From Stdlib Require Import List Bool Arith NArith ZArith Lia.
Import ListNotations.

Set Implicit Arguments.

(** ** JavaScript strings *)

Definition code_unit := N.
Definition jsstring := list code_unit.

(** The code unit of an ASCII character of the source text. *)
Definition cu (a : ascii) : code_unit := N_of_ascii a.

(** A string literal of the source text. *)
Definition lit (s : string) : jsstring := map cu (list_ascii_of_string s).

(** [String.prototype.substr(start, length)] for a non-negative [start];
    [None] is an omitted [length]. *)
Definition substr (s : jsstring) (start : nat) (len : option nat) : jsstring :=
  match len with
  | Some n => firstn n (skipn start s)
  | None => skipn start s
  end.

(** ** JavaScript values and completions *)

(** The values that the modelled functions return or test.  A match array
    (the result of a successful [RegExp.prototype.exec]) is represented by
    its element 0, the matched text; capture groups are left out. *)
Inductive value :=
| VUndefined
| VNull
| VBool (b : bool)
| VString (s : jsstring)
| VMatchArray (matched : jsstring)
| VFunction.

(** The abstract operation ToBoolean. *)
Definition ToBoolean (v : value) : bool :=
  match v with
  | VUndefined | VNull => false
  | VBool b => b
  | VString s => match s with [] => false | _ :: _ => true end
  | VMatchArray _ | VFunction => true
  end.

(** [a || b]: the left operand when it is truthy, else the right one. *)
Definition js_or (a b : value) : value := if ToBoolean a then a else b.

(** [!a] *)
Definition js_not (a : value) : value := VBool (negb (ToBoolean a)).

Definition is_boolean (v : value) : bool :=
  match v with VBool _ => true | _ => false end.

(** An optional string parameter ([@param {string} [id]]): [None] is a call
    without the argument, that is [undefined]. *)
Definition arg_value (a : option jsstring) : value :=
  match a with
  | None => VUndefined
  | Some s => VString s
  end.

(** ToString on an optional string argument, as [exec] applies it. *)
Definition arg_ToString (a : option jsstring) : jsstring :=
  match a with
  | None => lit "undefined"
  | Some s => s
  end.

(** A completion: a normal result, or a thrown error named by its class. *)
Inductive completion (A : Type) :=
| Normal (a : A)
| Throw (error_name : string).
Arguments Normal {A} a.
Arguments Throw {A} error_name.

Definition bind {A B} (c : completion A) (k : A -> completion B) : completion B :=
  match c with
  | Normal a => k a
  | Throw e => Throw e
  end.

Notation "x <- c ;; k" := (bind c (fun x => k))
  (at level 61, c at next level, right associativity).

(** ** Regular expressions *)

Module RegExp.

(** The fragment of the pattern syntax that the two literals of the file
    use: character classes given by their ranges, concatenation, [*], [+],
    [{n}] and (non-capturing) grouping.  [Void] and [Alt] are only produced
    by derivation. *)
Inductive regex :=
| Void
| Eps
| Class (ranges : list (code_unit * code_unit))
| Seq (r1 r2 : regex)
| Alt (r1 r2 : regex)
| Star (r : regex).

(** [r+] *)
Definition Plus (r : regex) : regex := Seq r (Star r).

(** [r{n}] *)
Fixpoint Repeat (n : nat) (r : regex) : regex :=
  match n with
  | O => Eps
  | S n' => Seq r (Repeat n' r)
  end.

(** A range [a-b] and a single character of a class. *)
Definition range (a b : ascii) : code_unit * code_unit := (cu a, cu b).
Definition single (a : ascii) : code_unit * code_unit := (cu a, cu a).

Definition in_ranges (rs : list (code_unit * code_unit)) (c : code_unit) : bool :=
  existsb (fun r => N.leb (fst r) c && N.leb c (snd r)) rs.

(** The language of a pattern. *)
Inductive lang : regex -> jsstring -> Prop :=
| lang_eps : lang Eps []
| lang_class rs c : in_ranges rs c = true -> lang (Class rs) [c]
| lang_seq r1 r2 s1 s2 : lang r1 s1 -> lang r2 s2 -> lang (Seq r1 r2) (s1 ++ s2)
| lang_alt_l r1 r2 s : lang r1 s -> lang (Alt r1 r2) s
| lang_alt_r r1 r2 s : lang r2 s -> lang (Alt r1 r2) s
| lang_star_nil r : lang (Star r) []
| lang_star_app r s1 s2 : lang r s1 -> lang (Star r) s2 -> lang (Star r) (s1 ++ s2).

(** Matching by derivatives. *)
Fixpoint nullable (r : regex) : bool :=
  match r with
  | Void => false
  | Eps => true
  | Class _ => false
  | Seq r1 r2 => nullable r1 && nullable r2
  | Alt r1 r2 => nullable r1 || nullable r2
  | Star _ => true
  end.

Fixpoint deriv (c : code_unit) (r : regex) : regex :=
  match r with
  | Void => Void
  | Eps => Void
  | Class rs => if in_ranges rs c then Eps else Void
  | Seq r1 r2 =>
      if nullable r1
      then Alt (Seq (deriv c r1) r2) (deriv c r2)
      else Seq (deriv c r1) r2
  | Alt r1 r2 => Alt (deriv c r1) (deriv c r2)
  | Star r1 => Seq (deriv c r1) (Star r1)
  end.

(** Whether the whole of [s] matches [r]: the pattern between [^] and [$]
    (no [m] flag, so the anchors are the two ends of the input). *)
Fixpoint matches (r : regex) (s : jsstring) : bool :=
  match s with
  | [] => nullable r
  | c :: s' => matches (deriv c r) s'
  end.

(** [/^r$/.exec(s)]: the match array, or [null]. *)
Definition exec_anchored (r : regex) (s : jsstring) : value :=
  if matches r s then VMatchArray s else VNull.

End RegExp.

Import RegExp.

(** ** The message enumerations *)

(** An item of an [Enum]: its key and its numeric value. *)
Record EnumItem := { key : jsstring; value_of : N }.

(** [new Enum(array)] of the [enum] package: the items, in the order of the
    array, the item at index [i] carrying the flag value [Math.pow(2, i)]. *)
Fixpoint enum_items (names : list jsstring) (i : nat) : list EnumItem :=
  match names with
  | [] => []
  | name :: rest =>
      {| key := name; value_of := 2 ^ N.of_nat i |} :: enum_items rest (S i)
  end.

Definition Enum := list EnumItem.

Definition new_Enum (names : list jsstring) : Enum := enum_items names 0.

Definition jsstring_eqb (a b : jsstring) : bool :=
  if list_eq_dec N.eq_dec a b then true else false.

(** [this._options.separator], which the source leaves at its default. *)
Definition separator : jsstring := lit " | ".

Fixpoint starts_with (p s : jsstring) : bool :=
  match p, s with
  | [], _ => true
  | _ :: _, [] => false
  | a :: p', b :: s' => N.eqb a b && starts_with p' s'
  end.

(** [s.indexOf(p)]; [None] is -1. *)
Fixpoint indexOf (s p : jsstring) : option nat :=
  if starts_with p s then Some 0%nat
  else match s with
       | [] => None
       | _ :: s' => option_map S (indexOf s' p)
       end.

(** [s.split(sep)] for a separator that is not empty: [current] is the
    part being read and [skip] the number of characters of a separator
    still to pass. *)
Fixpoint split_from (sep s : jsstring) (skip : nat) (current : jsstring)
  : list jsstring :=
  match s with
  | [] => [current]
  | c :: s' =>
      match skip with
      | S k => split_from sep s' k current
      | O =>
          if starts_with sep s
          then current :: split_from sep s' (length sep - 1) []
          else split_from sep s' 0 (current ++ [c])
      end
  end.

Definition split (s sep : jsstring) : list jsstring := split_from sep s 0 [].

(** What [this[key]] is on an [Enum] object: the item of that key; or one
    of the properties that the object has besides its items, the fields and
    the methods of the package and of [Object.prototype] ([get], [size],
    [isFlaggable], [toString], ...); or [undefined]. *)
Inductive property :=
| PItem (item : EnumItem)
| PMember
| PUndefined.

(** The names of the properties that the object has besides its items
    belong to the package, whose code is not part of the source: they are
    the argument [members]. *)
Definition Enum_property (members : jsstring -> bool) (e : Enum)
  (name : jsstring) : property :=
  match find (fun item => jsstring_eqb (key item) name) e with
  | Some item => PItem item
  | None => if members name then PMember else PUndefined
  end.

(** The loop [value |= enums[part].value] of [get] over the parts of a
    combined name: an item gives its value, a member has no [value] and
    adds nothing, and reading [value] of [undefined] is a [TypeError]. *)
Fixpoint or_values (members : jsstring -> bool) (e : Enum)
  (parts : list jsstring) (value : N) : completion N :=
  match parts with
  | [] => Normal value
  | part :: rest =>
      match Enum_property members e part with
      | PItem item => or_values members e rest (N.lor value (value_of item))
      | PMember => or_values members e rest value
      | PUndefined => Throw "TypeError"
      end
  end.

(** [e.get(name)] of the [enum] package on a string: a name that holds the
    separator after its first character is split, and a new item made of
    the name and of the values of its parts; any other name is read as a
    property of the object. *)
Definition Enum_get (members : jsstring -> bool) (e : Enum) (name : jsstring)
  : completion property :=
  match indexOf name separator with
  | Some (S _) =>
      value <- or_values members e (split name separator) 0 ;;
      Normal (PItem {| key := name; value_of := value |})
  | _ => Normal (Enum_property members e name)
  end.

Definition clientMessages : Enum :=
  new_Enum (map lit
    [ "SEND_OFFER";
      "SEND_ANSWER";
      "SEND_CANDIDATE";
      "SEND_LEAVE";
      "ROOM_JOIN";
      "ROOM_LEAVE";
      "ROOM_GET_LOGS";
      "ROOM_GET_USERS";
      "ROOM_SEND_DATA";
      "SFU_GET_OFFER";
      "SFU_ANSWER";
      "SFU_CANDIDATE";
      "PING";
      "UPDATE_CREDENTIAL" ]%string).

Definition serverMessages : Enum :=
  new_Enum (map lit
    [ "OPEN";
      "ERROR";
      "OFFER";
      "ANSWER";
      "CANDIDATE";
      "LEAVE";
      "AUTH_EXPIRES_IN";
      "ROOM_LOGS";
      "ROOM_USERS";
      "ROOM_DATA";
      "ROOM_USER_JOIN";
      "ROOM_USER_LEAVE";
      "SFU_OFFER" ]%string).

Record MessageTypes := { CLIENT : Enum; SERVER : Enum }.

(** ** The [Util] object *)

(** The three globals that the constructor reads from [window]. *)
Record Window := {
  mozRTCPeerConnection : value;
  webkitRTCPeerConnection : value;
  RTCPeerConnection : value
}.

(** The fields that the constructor sets ([pack], [unpack],
    [setZeroTimeout], [chunkedBrowsers] and [defaultConfig] are left out). *)
Record Util := {
  DISPATCHER_HOST : jsstring;
  DISPATCHER_PORT : Z;
  DISPATCHER_SECURE : bool;
  DISPATCHER_TIMEOUT : Z;
  TURN_HOST : jsstring;
  TURN_PORT : Z;
  debug : bool;
  MESSAGE_TYPES : MessageTypes;
  maxChunkSize : Z;
  reconnectionAttempts : Z;
  numberServersToTry : Z;
  sendInterval : Z;
  pingInterval : Z;
  browser : jsstring
}.

(** The immediately invoked function that computes [this.browser]. *)
Definition detect_browser (window : Window) : jsstring :=
  if ToBoolean (mozRTCPeerConnection window) then lit "Firefox"
  else if ToBoolean (webkitRTCPeerConnection window) then lit "Chrome"
  else if ToBoolean (RTCPeerConnection window) then lit "Supported"
  else lit "Unsupported".

(** [constructor()] *)
Definition new_Util (window : Window) : Util := {|
  DISPATCHER_HOST := lit "dispatcher.skyway.io";
  DISPATCHER_PORT := 443;
  DISPATCHER_SECURE := true;
  DISPATCHER_TIMEOUT := 3000;
  TURN_HOST := lit "turn.skyway.io";
  TURN_PORT := 443;
  debug := false;
  MESSAGE_TYPES := {| CLIENT := clientMessages; SERVER := serverMessages |};
  maxChunkSize := 16300;
  reconnectionAttempts := 2;
  numberServersToTry := 3;
  sendInterval := 1;
  pingInterval := 25000;
  browser := detect_browser window
|}.

(** The running page: the global object and the module's export, the
    single [Util] built when the module is loaded
    ([module.exports = new Util()]). *)
Record Page := { page_window : Window; exports : Util }.

Definition load_module (window : Window) : Page :=
  {| page_window := window; exports := new_Util window |}.

(** A later change of the globals; the exported object is not touched. *)
Definition set_window (window' : Window) (p : Page) : Page :=
  {| page_window := window'; exports := exports p |}.

(** Reading [util.browser]. *)
Definition read_browser (p : Page) : jsstring := browser (exports p).

(** What the identifier [window] is bound to where the module is loaded:
    nothing, as in plain Node; [undefined] or [null]; or a global object. *)
Inductive window_binding :=
| WindowUnbound
| WindowNullish
| WindowObject (window : Window).

(** The first read of the constructor, [window.mozRTCPeerConnection]: a
    [ReferenceError] on an identifier that is not bound, a [TypeError] on
    [undefined] and [null]. *)
Definition resolve_window (g : window_binding) : completion Window :=
  match g with
  | WindowUnbound => Throw "ReferenceError"
  | WindowNullish => Throw "TypeError"
  | WindowObject window => Normal window
  end.

(** Loading the module in a runtime, [module.exports = new Util()]. *)
Definition require_module (g : window_binding) : completion Page :=
  window <- resolve_window g ;;
  Normal (load_module window).

(** The absolute per-frame limit that the comment on [maxChunkSize] names:
    16KB. *)
Definition frame_limit : Z := 16 * 1024.

(** ** The validators *)

(** [/^[A-Za-z0-9_-]+(?:[ _-][A-Za-z0-9]+)*$/] *)
Definition peerIdPattern : regex :=
  Seq (Plus (Class [range "A" "Z"; range "a" "z"; range "0" "9";
                    single "_"; single "-"]))
      (Star (Seq (Class [single " "; single "_"; single "-"])
                 (Plus (Class [range "A" "Z"; range "a" "z"; range "0" "9"])))).

(** [validateId(id)] *)
Definition validateId (id : option jsstring) : value :=
  js_or (js_not (arg_value id))
        (exec_anchored peerIdPattern (arg_ToString id)).

(** [/^[a-z0-9]{8}(-[a-z0-9]{4}){3}-[a-z0-9]{12}$/] *)
Definition keyPattern : regex :=
  Seq (Repeat 8 (Class [range "a" "z"; range "0" "9"]))
      (Seq (Repeat 3 (Seq (Class [single "-"])
                          (Repeat 4 (Class [range "a" "z"; range "0" "9"]))))
           (Seq (Class [single "-"])
                (Repeat 12 (Class [range "a" "z"; range "0" "9"])))).

(** [validateKey(key)] *)
Definition validateKey (key : option jsstring) : value :=
  js_or (js_not (arg_value key))
        (exec_anchored keyPattern (arg_ToString key)).

(** A validator accepts an argument when what it returns is truthy, which
    is how the callers test it. *)
Definition accepts (validator : option jsstring -> value) (a : option jsstring) : bool :=
  ToBoolean (validator a).

(** The character classes of the two patterns. *)
Definition is_alnum : code_unit -> bool :=
  in_ranges [range "A" "Z"; range "a" "z"; range "0" "9"].
Definition is_word : code_unit -> bool :=
  in_ranges [range "A" "Z"; range "a" "z"; range "0" "9"; single "_"; single "-"].
Definition is_separator : code_unit -> bool :=
  in_ranges [single " "; single "_"; single "-"].
Definition is_lower_alnum : code_unit -> bool :=
  in_ranges [range "a" "z"; range "0" "9"].

Definition space : code_unit := cu " ".
Definition hyphen : code_unit := cu "-".

(** What the description of the peer id format excludes: a separator at
    the start, a separator at the end, two separators in a row. *)
Definition leading_separator (s : jsstring) : bool :=
  match s with
  | c :: _ => is_separator c
  | [] => false
  end.

Definition trailing_separator (s : jsstring) : bool :=
  leading_separator (rev s).

Fixpoint consecutive_separators (s : jsstring) : bool :=
  match s with
  | c1 :: ((c2 :: _) as rest) =>
      (is_separator c1 && is_separator c2) || consecutive_separators rest
  | _ => false
  end.

(** The canonical textual form of a UUID: lowercase hexadecimal groups of
    8, 4, 4, 4 and 12 digits, joined by hyphens. *)
Definition is_lower_hex : code_unit -> bool :=
  in_ranges [range "0" "9"; range "a" "f"].

Definition grouped (digit : code_unit -> bool) (g1 g2 g3 g4 g5 : jsstring) : Prop :=
  (length g1 = 8 /\ length g2 = 4 /\ length g3 = 4 /\ length g4 = 4 /\
   length g5 = 12)%nat /\
  Forall (fun c => digit c = true) (g1 ++ g2 ++ g3 ++ g4 ++ g5).

Definition hyphenated (g1 g2 g3 g4 g5 : jsstring) : jsstring :=
  g1 ++ hyphen :: g2 ++ hyphen :: g3 ++ hyphen :: g4 ++ hyphen :: g5.

Definition canonical_uuid (s : jsstring) : Prop :=
  exists g1 g2 g3 g4 g5,
    s = hyphenated g1 g2 g3 g4 g5 /\ grouped is_lower_hex g1 g2 g3 g4 g5.

(** ** Random identifiers *)

(** [Math.random().toString(36)] is an input of the model.  For a number of
    the interval [0, 1) the rendering in radix 36 is ["0"] for zero and
    otherwise ["0."] followed by at least one digit of [0-9a-z]. *)
Definition is_digit36 : code_unit -> bool :=
  in_ranges [range "0" "9"; range "a" "z"].

Definition is_random36 (r : jsstring) : bool :=
  match r with
  | [z] => N.eqb z (cu "0")
  | z :: dot :: d :: ds =>
      N.eqb z (cu "0") && N.eqb dot (cu ".") && forallb is_digit36 (d :: ds)
  | _ => false
  end.

(** [randomToken()], given [Math.random().toString(36)]. *)
Definition randomToken (random36 : jsstring) : jsstring :=
  substr random36 2 None.

(** [randomId()], given [Math.random().toString(36)]. *)
Definition randomId (random36 : jsstring) : jsstring :=
  let keyLength := 16%nat in
  let randString := random36 ++ lit "0000000000000000000" in
  substr randString 2 (Some keyLength).

(** ** Buffers *)

(** An [ArrayBuffer], and a [Uint8Array] over it, is the list of its
    bytes. *)
Definition ArrayBuffer := list Byte.byte.

Definition byteLength (b : ArrayBuffer) : nat := length b.

(** [new Uint8Array(size)]: [size] zero bytes. *)
Definition new_Uint8Array (size : nat) : ArrayBuffer := repeat Byte.x00 size.

(** [target.set(source, offset)]: the bytes of [source] written from
    [offset] on; a [RangeError] when they do not fit. *)
Definition Uint8Array_set (target source : ArrayBuffer) (offset : nat)
  : completion ArrayBuffer :=
  if (length source + offset <=? length target)%nat
  then Normal (firstn offset target ++ source
                 ++ skipn (offset + length source) target)
  else Throw "RangeError".

(** The [for ... of] loop of [joinArrayBuffers], on the state
    [(tmpArray, currPos)]. *)
Fixpoint join_loop (buffers : list ArrayBuffer) (tmpArray : ArrayBuffer)
  (currPos : nat) : completion ArrayBuffer :=
  match buffers with
  | [] => Normal tmpArray
  | buffer :: rest =>
      tmpArray' <- Uint8Array_set tmpArray buffer currPos ;;
      join_loop rest tmpArray' (currPos + byteLength buffer)
  end.

(** [joinArrayBuffers(buffers)] *)
Definition joinArrayBuffers (buffers : list ArrayBuffer) : completion ArrayBuffer :=
  let size := fold_left (fun sum buffer => (sum + byteLength buffer)%nat) buffers 0%nat in
  let tmpArray := new_Uint8Array size in
  join_loop buffers tmpArray 0.

(** The shape that [peerIdPattern] describes: a first segment of word
    characters, then groups of one separator and one alphanumeric
    segment. *)
Definition group := (code_unit * jsstring)%type.

Definition render_groups (gs : list group) : jsstring :=
  flat_map (fun g => fst g :: snd g) gs.

Definition well_formed_group (g : group) : Prop :=
  is_separator (fst g) = true /\ snd g <> [] /\
  Forall (fun c => is_alnum c = true) (snd g).

Definition peer_id_shape (s : jsstring) : Prop :=
  exists seg0 gs,
    s = seg0 ++ render_groups gs /\ seg0 <> [] /\
    Forall (fun c => is_word c = true) seg0 /\ Forall well_formed_group gs.

(** The names of section 3 of the specification, family by family. *)
Definition spec_client_names : list jsstring :=
  map lit [ "SEND_OFFER"; "SEND_ANSWER"; "SEND_CANDIDATE"; "SEND_LEAVE";
            "ROOM_JOIN"; "ROOM_LEAVE"; "ROOM_GET_LOGS"; "ROOM_GET_USERS";
            "ROOM_SEND_DATA"; "SFU_GET_OFFER"; "SFU_ANSWER"; "SFU_CANDIDATE";
            "PING"; "UPDATE_CREDENTIAL" ]%string.

Definition spec_server_names : list jsstring :=
  map lit [ "OPEN"; "ERROR"; "OFFER"; "ANSWER"; "CANDIDATE"; "LEAVE";
            "AUTH_EXPIRES_IN"; "ROOM_LOGS"; "ROOM_USERS"; "ROOM_DATA";
            "ROOM_USER_JOIN"; "ROOM_USER_LEAVE"; "SFU_OFFER" ]%string.

(** ** Binary strings *)

(** [String.prototype.charCodeAt(i)]: the code unit at index [i], or [NaN]
    ([None]) when there is none. *)
Definition charCodeAt (s : jsstring) (i : nat) : option code_unit :=
  nth_error s i.

(** [x & 0xff] on what [charCodeAt] returns; [NaN] converts to 0. *)
Definition and_0xff (x : option code_unit) : N :=
  match x with
  | Some c => N.land c 255
  | None => 0
  end.

(** The conversion of a number to an element of a [Uint8Array]: the number
    modulo 256. *)
Definition to_uint8 (n : N) : Byte.byte :=
  match Byte.of_N (n mod 256) with
  | Some b => b
  | None => Byte.x00
  end.

(** [array[i] = v] on a [Uint8Array]; a write beyond the end is ignored. *)
Definition Uint8Array_store (array : ArrayBuffer) (i : nat) (v : N) : ArrayBuffer :=
  if (i <? length array)%nat
  then firstn i array ++ to_uint8 v :: skipn (S i) array
  else array.

(** The [for] loop of [binaryStringToArrayBuffer] from index [i] on, on the
    state [byteArray]; [fuel] bounds the number of iterations. *)
Fixpoint binaryString_loop (fuel : nat) (binary : jsstring) (i : nat)
  (byteArray : ArrayBuffer) : ArrayBuffer :=
  match fuel with
  | O => byteArray
  | S fuel' =>
      if (i <? length binary)%nat
      then binaryString_loop fuel' binary (S i)
             (Uint8Array_store byteArray i (and_0xff (charCodeAt binary i)))
      else byteArray
  end.

(** [binaryStringToArrayBuffer(binary)] *)
Definition binaryStringToArrayBuffer (binary : jsstring) : ArrayBuffer :=
  let byteArray := new_Uint8Array (length binary) in
  binaryString_loop (length binary) binary 0 byteArray.

(** The binary string of some bytes, as [FileReader.readAsBinaryString]
    hands it to the callback of [blobToBinaryString]: one code unit per
    byte, of the value of the byte. *)
Definition binaryString_of (bytes : ArrayBuffer) : jsstring :=
  map Byte.to_N bytes.

(** * Properties *)

(** ** Matching by derivatives decides the language *)

Module RegExpFacts.

Lemma nullable_sound r : nullable r = true -> lang r [].
Proof.
  induction r; simpl; intros H; try discriminate.
  - constructor.
  - apply andb_true_iff in H as [H1 H2].
    change (@nil code_unit) with (@nil code_unit ++ []). constructor; auto.
  - apply orb_true_iff in H as [H | H].
    + apply lang_alt_l; auto.
    + apply lang_alt_r; auto.
  - constructor.
Qed.

Lemma nullable_complete r s : lang r s -> s = [] -> nullable r = true.
Proof.
  induction 1; simpl; intros E; auto; try discriminate.
  - apply app_eq_nil in E as [E1 E2]. rewrite IHlang1, IHlang2; auto.
  - rewrite IHlang; auto.
  - rewrite IHlang; auto using orb_true_r.
Qed.

Lemma nullable_lang r : nullable r = true <-> lang r [].
Proof.
  split; [apply nullable_sound | intros H; eapply nullable_complete; eauto].
Qed.

Lemma deriv_sound c r : forall s, lang (deriv c r) s -> lang r (c :: s).
Proof.
  induction r; simpl; intros s H.
  - inversion H.
  - inversion H.
  - destruct (in_ranges ranges c) eqn:E; inversion H; subst.
    constructor; assumption.
  - destruct (nullable r1) eqn:N1.
    + inversion H; subst.
      * match goal with
        | H' : lang (Seq _ _) _ |- _ => inversion H'; subst
        end.
        change (c :: s1 ++ s2) with ((c :: s1) ++ s2). constructor; auto.
      * change (c :: s) with ([] ++ c :: s).
        constructor; auto. apply nullable_sound; assumption.
    + inversion H; subst.
      change (c :: s1 ++ s2) with ((c :: s1) ++ s2). constructor; auto.
  - inversion H; subst.
    + apply lang_alt_l; auto.
    + apply lang_alt_r; auto.
  - inversion H; subst.
    change (c :: s1 ++ s2) with ((c :: s1) ++ s2). constructor; auto.
Qed.

Lemma deriv_complete r t :
  lang r t -> forall c s, t = c :: s -> lang (deriv c r) s.
Proof.
  induction 1; intros c0 s0 E; simpl.
  - discriminate.
  - injection E as -> <-. rewrite H. constructor.
  - destruct s1 as [|c1 s1']; simpl in E.
    + subst s2.
      rewrite (nullable_complete H eq_refl).
      apply lang_alt_r. apply IHlang2; reflexivity.
    + injection E as -> <-.
      destruct (nullable r1).
      * apply lang_alt_l. constructor; auto.
      * constructor; auto.
  - apply lang_alt_l; auto.
  - apply lang_alt_r; auto.
  - discriminate.
  - destruct s1 as [|c1 s1']; simpl in E.
    + apply (IHlang2 _ _ E).
    + injection E as -> <-.
      constructor; auto.
Qed.

Lemma deriv_lang c r s : lang (deriv c r) s <-> lang r (c :: s).
Proof.
  split; [apply deriv_sound | intros H; eapply deriv_complete; eauto].
Qed.

Lemma matches_lang s : forall r, matches r s = true <-> lang r s.
Proof.
  induction s as [|c s IH]; intros r; simpl.
  - apply nullable_lang.
  - rewrite IH. apply deriv_lang.
Qed.

End RegExpFacts.

(** ** The languages of the pattern constructors *)

Module LangFacts.

Lemma lang_class_inv rs s :
  lang (Class rs) s <-> exists c, s = [c] /\ in_ranges rs c = true.
Proof.
  split.
  - intros H. inversion H; subst. eauto.
  - intros (c & -> & H). constructor; assumption.
Qed.

Lemma lang_seq_inv r1 r2 s :
  lang (Seq r1 r2) s <-> exists s1 s2, s = s1 ++ s2 /\ lang r1 s1 /\ lang r2 s2.
Proof.
  split.
  - intros H. inversion H; subst. eauto.
  - intros (s1 & s2 & -> & H1 & H2). constructor; assumption.
Qed.

Lemma lang_eps_inv s : lang Eps s <-> s = [].
Proof.
  split.
  - intros H. inversion H; reflexivity.
  - intros ->. constructor.
Qed.

(** A starred pattern matches the concatenations of matches of its body. *)
Lemma lang_star_concat r s :
  lang (Star r) s <-> exists parts, s = concat parts /\ Forall (lang r) parts.
Proof.
  split.
  - intros H. remember (Star r) as r' eqn:E.
    induction H; try discriminate.
    + exists []. split; [reflexivity | constructor].
    + injection E as ->.
      destruct (IHlang2 eq_refl) as (parts & -> & Hparts).
      exists (s1 :: parts). split; [reflexivity | constructor; assumption].
  - intros (parts & -> & Hparts).
    induction Hparts; simpl; constructor; assumption.
Qed.

Lemma lang_star_class rs s :
  lang (Star (Class rs)) s <-> Forall (fun c => in_ranges rs c = true) s.
Proof.
  rewrite lang_star_concat. split.
  - intros (parts & -> & Hparts).
    induction Hparts as [|p parts Hp _ IH]; simpl; [constructor|].
    apply lang_class_inv in Hp as (c & -> & Hc). constructor; assumption.
  - intros H. exists (map (fun c => [c]) s). split.
    + induction s as [|c s IH]; simpl; [reflexivity|].
      inversion H; subst. f_equal; auto.
    + induction H; simpl; constructor; auto.
      constructor; assumption.
Qed.

Lemma lang_plus_class rs s :
  lang (Plus (Class rs)) s <->
  s <> [] /\ Forall (fun c => in_ranges rs c = true) s.
Proof.
  unfold Plus. rewrite lang_seq_inv. split.
  - intros (s1 & s2 & -> & H1 & H2).
    apply lang_class_inv in H1 as (c & -> & Hc).
    apply lang_star_class in H2.
    split; [discriminate | constructor; assumption].
  - intros [Hne H]. destruct s as [|c s]; [contradiction|].
    inversion H; subst.
    exists [c], s. repeat split.
    + constructor; assumption.
    + apply lang_star_class; assumption.
Qed.

Lemma lang_repeat_class rs n : forall s,
  lang (Repeat n (Class rs)) s <->
  length s = n /\ Forall (fun c => in_ranges rs c = true) s.
Proof.
  induction n as [|n IH]; intros s; simpl.
  - rewrite lang_eps_inv. split.
    + intros ->. split; [reflexivity | constructor].
    + intros [H _]. destruct s; [reflexivity | discriminate].
  - rewrite lang_seq_inv. split.
    + intros (s1 & s2 & -> & H1 & H2).
      apply lang_class_inv in H1 as (c & -> & Hc).
      apply IH in H2 as [Hlen Hall].
      simpl. split; [congruence | constructor; assumption].
    + intros [Hlen Hall]. destruct s as [|c s]; [discriminate|].
      inversion Hall; subst.
      exists [c], s. repeat split.
      * constructor; assumption.
      * apply IH. split; [simpl in Hlen; congruence | assumption].
Qed.

(** The tail of [peerIdPattern]: the groups. *)
Lemma lang_groups t :
  lang (Star (Seq (Class [single " "; single "_"; single "-"])
                  (Plus (Class [range "A" "Z"; range "a" "z"; range "0" "9"])))) t
  <-> exists gs, t = render_groups gs /\ Forall well_formed_group gs.
Proof.
  rewrite lang_star_concat. split.
  - intros (parts & -> & Hparts).
    induction Hparts as [|p parts Hp _ (gs & E & Hgs)].
    + exists []. split; [reflexivity | constructor].
    + apply lang_seq_inv in Hp as (s1 & seg & -> & H1 & H2).
      apply lang_class_inv in H1 as (c & -> & Hc).
      apply lang_plus_class in H2 as [Hne Hall].
      exists ((c, seg) :: gs). split.
      * simpl. rewrite E. reflexivity.
      * constructor; [repeat split; assumption | assumption].
  - intros (gs & -> & Hgs).
    exists (map (fun g => fst g :: snd g) gs). split.
    + unfold render_groups. rewrite flat_map_concat_map. reflexivity.
    + induction Hgs as [|[c seg] gs (Hc & Hne & Hall) _ IH]; simpl;
        constructor; auto.
      change (c :: seg) with ([c] ++ seg). constructor.
      * constructor; assumption.
      * apply lang_plus_class. split; assumption.
Qed.

Lemma lang_peerIdPattern s : lang peerIdPattern s <-> peer_id_shape s.
Proof.
  unfold peerIdPattern, peer_id_shape. rewrite lang_seq_inv. split.
  - intros (seg0 & t & -> & H1 & H2).
    apply lang_plus_class in H1 as [Hne Hall].
    apply lang_groups in H2 as (gs & -> & Hgs).
    exists seg0, gs. repeat split; assumption.
  - intros (seg0 & gs & -> & Hne & Hall & Hgs).
    exists seg0, (render_groups gs). repeat split.
    + apply lang_plus_class. split; assumption.
    + apply lang_groups. eauto.
Qed.

End LangFacts.

(** ** Facts on the character classes *)

Module CharFacts.

Ltac classes :=
  unfold is_alnum, is_word, is_separator, is_lower_alnum, is_lower_hex,
    is_digit36, space, hyphen, in_ranges, range, single, cu;
  cbn;
  rewrite ?orb_true_iff, ?andb_true_iff, ?orb_false_iff, ?andb_false_iff,
    ?N.leb_le, ?N.leb_gt;
  lia.

Lemma only_hyphen c : in_ranges [single "-"] c = true -> c = hyphen.
Proof. classes. Qed.

Lemma hyphen_in_class : in_ranges [single "-"] hyphen = true.
Proof. reflexivity. Qed.

Lemma alnum_word c : is_alnum c = true -> is_word c = true.
Proof. classes. Qed.

Lemma separator_word_or_space c :
  is_separator c = true -> is_word c = true \/ c = space.
Proof. classes. Qed.

Lemma alnum_not_separator c : is_alnum c = true -> is_separator c = false.
Proof. classes. Qed.

Lemma word_not_space c : is_word c = true -> c <> space.
Proof. classes. Qed.

Lemma alnum_not_space c : is_alnum c = true -> c <> space.
Proof. classes. Qed.

Lemma lower_hex_lower_alnum c : is_lower_hex c = true -> is_lower_alnum c = true.
Proof. classes. Qed.

Lemma lower_alnum_digit36 c : is_lower_alnum c = is_digit36 c.
Proof.
  unfold is_lower_alnum, is_digit36, in_ranges. cbn.
  rewrite !orb_false_r. apply orb_comm.
Qed.

End CharFacts.

(** ** The language of [keyPattern] *)

Module KeyFacts.
Import LangFacts CharFacts.

Lemma lang_repeat_S r n s :
  lang (Repeat (S n) r) s <->
  exists s1 s2, s = s1 ++ s2 /\ lang r s1 /\ lang (Repeat n r) s2.
Proof. simpl. apply lang_seq_inv. Qed.

(** A hyphen and a group of [n] characters of a class. *)
Lemma lang_hyphen_group rs n p :
  lang (Seq (Class [single "-"]) (Repeat n (Class rs))) p <->
  exists g, p = hyphen :: g /\ length g = n /\
            Forall (fun c => in_ranges rs c = true) g.
Proof.
  rewrite lang_seq_inv. split.
  - intros (s1 & g & -> & H1 & H2).
    apply lang_class_inv in H1 as (c & -> & Hc).
    apply only_hyphen in Hc as ->.
    apply lang_repeat_class in H2 as [Hlen Hall].
    exists g. repeat split; assumption.
  - intros (g & -> & Hlen & Hall).
    exists [hyphen], g. repeat split.
    + constructor. apply hyphen_in_class.
    + apply lang_repeat_class. split; assumption.
Qed.

Lemma lang_keyPattern s :
  lang keyPattern s <->
  exists g1 g2 g3 g4 g5,
    s = hyphenated g1 g2 g3 g4 g5 /\ grouped is_lower_alnum g1 g2 g3 g4 g5.
Proof.
  unfold keyPattern, grouped, hyphenated. split.
  - intros H.
    apply lang_seq_inv in H as (g1 & t1 & -> & H1 & H).
    apply lang_repeat_class in H1 as [L1 A1].
    apply lang_seq_inv in H as (m & t5 & -> & Hm & H5).
    apply lang_hyphen_group in H5 as (g5 & -> & L5 & A5).
    apply lang_repeat_S in Hm as (p2 & m3 & -> & H2 & Hm).
    apply lang_repeat_S in Hm as (p3 & m4 & -> & H3 & Hm).
    apply lang_repeat_S in Hm as (p4 & m5 & -> & H4 & Hm).
    simpl in Hm. apply lang_eps_inv in Hm as ->.
    apply lang_hyphen_group in H2 as (g2 & -> & L2 & A2).
    apply lang_hyphen_group in H3 as (g3 & -> & L3 & A3).
    apply lang_hyphen_group in H4 as (g4 & -> & L4 & A4).
    exists g1, g2, g3, g4, g5. split; [|split].
    + simpl. rewrite app_nil_r, <- !app_assoc. simpl.
      rewrite <- !app_assoc. reflexivity.
    + repeat split; assumption.
    + repeat (apply Forall_app; split); assumption.
  - intros (g1 & g2 & g3 & g4 & g5 & -> & (L1 & L2 & L3 & L4 & L5) & A).
    apply Forall_app in A as [A1 A]. apply Forall_app in A as [A2 A].
    apply Forall_app in A as [A3 A]. apply Forall_app in A as [A4 A5].
    apply lang_seq_inv. exists g1, (hyphen :: g2 ++ hyphen :: g3 ++ hyphen :: g4 ++ hyphen :: g5).
    split; [reflexivity|]. split.
    + apply lang_repeat_class. split; assumption.
    + apply lang_seq_inv.
      exists ((hyphen :: g2) ++ (hyphen :: g3) ++ (hyphen :: g4) ++ []), (hyphen :: g5).
      split; [|split].
      * simpl. rewrite app_nil_r, <- !app_assoc. simpl.
        rewrite <- !app_assoc. reflexivity.
      * repeat (apply lang_repeat_S; eexists _, _; split; [reflexivity|];
                split; [apply lang_hyphen_group; eexists; eauto|]).
        simpl. constructor.
      * apply lang_hyphen_group. eexists; eauto.
Qed.

(** Two splittings of one string at the same position are the same. *)
Lemma app_same_length (A : Type) (a a' x y : list A) :
  length a = length a' -> a ++ x = a' ++ y -> a = a' /\ x = y.
Proof.
  revert a'. induction a as [|h a IH]; intros [|h' a'] L E;
    try discriminate; simpl in *.
  - auto.
  - injection E as -> E. injection L as L.
    destruct (IH _ L E) as [-> ->]. auto.
Qed.

Lemma hyphenated_inj g1 g2 g3 g4 g5 h1 h2 h3 h4 h5 :
  length g1 = length h1 -> length g2 = length h2 -> length g3 = length h3 ->
  length g4 = length h4 ->
  hyphenated g1 g2 g3 g4 g5 = hyphenated h1 h2 h3 h4 h5 ->
  g1 = h1 /\ g2 = h2 /\ g3 = h3 /\ g4 = h4 /\ g5 = h5.
Proof.
  unfold hyphenated. intros L1 L2 L3 L4 E.
  apply app_same_length in E as [-> E]; [|assumption]. injection E as E.
  apply app_same_length in E as [-> E]; [|assumption]. injection E as E.
  apply app_same_length in E as [-> E]; [|assumption]. injection E as E.
  apply app_same_length in E as [-> E]; [|assumption]. injection E as ->.
  repeat split.
Qed.

End KeyFacts.

(** ** Consequences of the peer id shape *)

Module ShapeFacts.
Import CharFacts.

(** An element that a segment cannot hold lies beyond the segment. *)
Lemma beyond_segment (Q : code_unit -> Prop) x seg : forall a b rest,
  Forall Q seg -> ~ Q x -> a ++ x :: b = seg ++ rest ->
  exists a', a = seg ++ a' /\ rest = a' ++ x :: b.
Proof.
  induction seg as [|q seg IH]; intros a b rest Hall Hx E.
  - exists a. split; [reflexivity | symmetry; assumption].
  - inversion Hall; subst.
    destruct a as [|c a]; simpl in E; injection E as -> E.
    + contradiction.
    + destruct (IH _ _ _ H2 Hx E) as (a' & -> & ->).
      exists a'. split; reflexivity.
Qed.

Lemma groups_space_then_alnum gs :
  Forall well_formed_group gs ->
  forall a b, render_groups gs = a ++ space :: b ->
  exists d b', b = d :: b' /\ is_alnum d = true.
Proof.
  induction 1 as [|[c seg] gs (Hc & Hne & Hall) _ IH]; intros a b E; simpl in *.
  - destruct a; discriminate.
  - destruct a as [|c' a]; simpl in E; injection E as -> E.
    + destruct seg as [|d seg]; [contradiction|].
      inversion Hall; subst. simpl. eauto.
    + symmetry in E.
      apply (beyond_segment (Q := fun c => is_alnum c = true)) in E
        as (a' & -> & E); [| assumption |].
      * eapply IH; eassumption.
      * intros Hs. apply alnum_not_space in Hs. congruence.
Qed.

(** In a string of the shape every space is followed by an alphanumeric
    character. *)
Lemma shape_space_then_alnum s :
  peer_id_shape s ->
  forall a b, s = a ++ space :: b ->
  exists d b', b = d :: b' /\ is_alnum d = true.
Proof.
  intros (seg0 & gs & -> & Hne & Hall & Hgs) a b E.
  symmetry in E.
  apply (beyond_segment (Q := fun c => is_word c = true)) in E
    as (a' & -> & E); [| assumption |].
  - eapply groups_space_then_alnum; eassumption.
  - intros Hs. apply word_not_space in Hs. congruence.
Qed.

Lemma shape_first_word s :
  peer_id_shape s -> exists c t, s = c :: t /\ is_word c = true.
Proof.
  intros (seg0 & gs & -> & Hne & Hall & _).
  destruct seg0 as [|c seg0]; [contradiction|].
  inversion Hall; subst. simpl. eauto.
Qed.

Lemma groups_allowed gs :
  Forall well_formed_group gs ->
  Forall (fun c => is_word c = true \/ c = space) (render_groups gs).
Proof.
  induction 1 as [|[c seg] gs (Hc & _ & Hall) _ IH]; simpl.
  - constructor.
  - constructor; [apply separator_word_or_space; assumption|].
    apply Forall_app. split; [|assumption].
    eapply Forall_impl; [|eassumption].
    intros d Hd. left. apply alnum_word; assumption.
Qed.

Lemma shape_allowed s :
  peer_id_shape s -> Forall (fun c => is_word c = true \/ c = space) s.
Proof.
  intros (seg0 & gs & -> & _ & Hall & Hgs).
  apply Forall_app. split.
  - eapply Forall_impl; [|eassumption]. intros; left; assumption.
  - apply groups_allowed; assumption.
Qed.

End ShapeFacts.

(** ** What the validators return *)

Module ValidatorFacts.
Import RegExpFacts.

Lemma validateId_nonempty (s : jsstring) :
  s <> [] -> validateId (Some s) = exec_anchored peerIdPattern s.
Proof. destruct s; [contradiction | reflexivity]. Qed.

Lemma validateKey_nonempty (s : jsstring) :
  s <> [] -> validateKey (Some s) = exec_anchored keyPattern s.
Proof. destruct s; [contradiction | reflexivity]. Qed.

Lemma ToBoolean_exec r s : ToBoolean (exec_anchored r s) = matches r s.
Proof. unfold exec_anchored. destruct (matches r s); reflexivity. Qed.

Lemma accepts_validateId (s : jsstring) :
  s <> [] -> (accepts validateId (Some s) = true <-> lang peerIdPattern s).
Proof.
  intros H. unfold accepts.
  rewrite (validateId_nonempty H), ToBoolean_exec. apply matches_lang.
Qed.

Lemma accepts_validateKey (s : jsstring) :
  s <> [] -> (accepts validateKey (Some s) = true <-> lang keyPattern s).
Proof.
  intros H. unfold accepts.
  rewrite (validateKey_nonempty H), ToBoolean_exec. apply matches_lang.
Qed.

(** On a string that is not empty the validators hand back what [exec]
    returns, which is never a boolean. *)
Lemma exec_not_boolean r s : is_boolean (exec_anchored r s) = false.
Proof. unfold exec_anchored. destruct (matches r s); reflexivity. Qed.

End ValidatorFacts.

(** * The claims *)

Import RegExpFacts LangFacts CharFacts KeyFacts ShapeFacts ValidatorFacts.

(** ** Peer ids *)

(** C1, as amended: [validateId] accepts the absent and the empty id, and
    accepts any other id exactly when it is a non-empty first segment of
    alphanumeric, underscore or hyphen characters followed by groups of one
    separator (space, underscore or hyphen) and one non-empty alphanumeric
    segment.  It rejects every id that starts or ends with a space, that
    has a space immediately followed by a separator, or that holds a
    character other than an alphanumeric one, an underscore, a hyphen or a
    space. *)
Theorem validateId_format :
  (forall id : option jsstring,
     accepts validateId id = true <->
     id = None \/ id = Some [] \/ exists s, id = Some s /\ peer_id_shape s) /\
  (forall s : jsstring,
     (exists t, s = space :: t) \/
     (exists t, s = t ++ [space]) \/
     (exists a c b, s = a ++ space :: c :: b /\ is_separator c = true) \/
     (exists c, In c s /\ is_word c = false /\ c <> space) ->
     accepts validateId (Some s) = false).
Proof.
  assert (Hiff : forall s, s <> [] ->
            (accepts validateId (Some s) = true <-> peer_id_shape s)).
  { intros s Hs. rewrite (accepts_validateId Hs). apply lang_peerIdPattern. }
  split.
  - intros [[|c s]|].
    + split; auto.
    + rewrite Hiff by discriminate. split.
      * intros H. right; right. eauto.
      * intros [H | [H | (s' & E & H)]]; try discriminate.
        injection E as <-. assumption.
    + split; auto.
  - intros s H.
    assert (Hs : s <> []).
    { destruct H as [(t & ->) | [(t & ->) | [(a & c & b & -> & _) | (c & Hin & _)]]];
        try discriminate.
      - destruct t; discriminate.
      - destruct a; discriminate.
      - destruct s; [destruct Hin | discriminate]. }
    apply not_true_is_false. rewrite (Hiff s Hs). intros Hshape.
    destruct H as [(t & ->) | [(t & ->) | [(a & c & b & -> & Hc) | (c & Hin & Hw & Hn)]]].
    + apply shape_first_word in Hshape as (c & t' & E & Hw).
      injection E as <- _. discriminate.
    + destruct (shape_space_then_alnum Hshape t [] eq_refl) as (d & b' & E & _).
      discriminate.
    + destruct (shape_space_then_alnum Hshape a (c :: b) eq_refl)
        as (d & b' & E & Hd).
      injection E as <- _.
      apply alnum_not_separator in Hd. congruence.
    + apply shape_allowed in Hshape.
      rewrite Forall_forall in Hshape.
      destruct (Hshape c Hin); congruence.
Qed.

(** The amended format at ["a b-c_d"], which is accepted, and at ["a  b"],
    [" a"], ["a "] and ["a!b"], which are rejected. *)
Lemma validateId_format_witness :
  accepts validateId (Some (lit "a b-c_d")) = true /\
  accepts validateId (Some (lit "a  b")) = false /\
  accepts validateId (Some (lit " a")) = false /\
  accepts validateId (Some (lit "a ")) = false /\
  accepts validateId (Some (lit "a!b")) = false.
Proof.
  destruct validateId_format as [Hacc Hrej].
  split; [|split; [|split; [|split]]].
  - apply Hacc. right; right. exists (lit "a b-c_d"). split; [reflexivity|].
    exists (lit "a"), [(cu " ", lit "b"); (cu "-", lit "c"); (cu "_", lit "d")].
    split; [reflexivity|]. split; [discriminate|].
    split; [repeat constructor|].
    repeat constructor; discriminate.
  - apply Hrej. right; right; left.
    exists (lit "a"), space, (lit "b"). split; reflexivity.
  - apply Hrej. left. exists (lit "a"). reflexivity.
  - apply Hrej. right; left. exists (lit "a"). reflexivity.
  - apply Hrej. right; right; right. exists (cu "!").
    split; [simpl; auto | split; [reflexivity | discriminate]].
Defined.

(** C1 as stated fails: ["-a"] starts with a separator, ["a-"] ends with
    one, ["a--b"] has two in a row, and [validateId] accepts all three. *)
Lemma validateId_accepts_separator_runs :
  (leading_separator (lit "-a") = true /\
   accepts validateId (Some (lit "-a")) = true) /\
  (trailing_separator (lit "a-") = true /\
   accepts validateId (Some (lit "a-")) = true) /\
  (consecutive_separators (lit "a--b") = true /\
   accepts validateId (Some (lit "a--b")) = true).
Proof. repeat split; vm_compute; reflexivity. Qed.

(** ** API keys *)

(** C2, as amended: [validateKey] accepts the absent and the empty key, and
    accepts any other key exactly when it is five groups of 8, 4, 4, 4 and
    12 characters of [a-z0-9] joined by hyphens.  Every canonical lowercase
    UUID is therefore accepted, and a key of that layout with a character
    outside [a-z0-9] in a group is rejected. *)
Theorem validateKey_format :
  (forall key : option jsstring,
     accepts validateKey key = true <->
     key = None \/ key = Some [] \/
     exists g1 g2 g3 g4 g5,
       key = Some (hyphenated g1 g2 g3 g4 g5) /\
       grouped is_lower_alnum g1 g2 g3 g4 g5) /\
  (forall s : jsstring,
     canonical_uuid s -> accepts validateKey (Some s) = true) /\
  (forall (g1 g2 g3 g4 g5 : jsstring) (c : code_unit),
     (length g1 = 8 /\ length g2 = 4 /\ length g3 = 4 /\ length g4 = 4 /\
      length g5 = 12)%nat ->
     In c (g1 ++ g2 ++ g3 ++ g4 ++ g5) -> is_lower_alnum c = false ->
     accepts validateKey (Some (hyphenated g1 g2 g3 g4 g5)) = false).
Proof.
  assert (Hiff : forall s, s <> [] ->
            (accepts validateKey (Some s) = true <->
             exists g1 g2 g3 g4 g5,
               s = hyphenated g1 g2 g3 g4 g5 /\
               grouped is_lower_alnum g1 g2 g3 g4 g5)).
  { intros s Hs. rewrite (accepts_validateKey Hs). apply lang_keyPattern. }
  assert (Hne : forall g1 g2 g3 g4 g5, hyphenated g1 g2 g3 g4 g5 <> []).
  { intros g1 g2 g3 g4 g5. unfold hyphenated. destruct g1; discriminate. }
  split; [|split].
  - intros [[|c s]|].
    + split; auto.
    + rewrite Hiff by discriminate. split.
      * intros (g1 & g2 & g3 & g4 & g5 & -> & H). right; right.
        exists g1, g2, g3, g4, g5. split; [reflexivity | assumption].
      * intros [H | [H | (g1 & g2 & g3 & g4 & g5 & E & H)]]; try discriminate.
        injection E as E. exists g1, g2, g3, g4, g5. split; assumption.
    + split; auto.
  - intros s (g1 & g2 & g3 & g4 & g5 & -> & L & A).
    apply Hiff; [apply Hne|].
    exists g1, g2, g3, g4, g5. split; [reflexivity|]. split; [assumption|].
    eapply Forall_impl; [|eassumption].
    intros c. apply lower_hex_lower_alnum.
  - intros g1 g2 g3 g4 g5 c (L1 & L2 & L3 & L4 & L5) Hin Hc.
    apply not_true_is_false. rewrite (Hiff _ (Hne g1 g2 g3 g4 g5)).
    intros (h1 & h2 & h3 & h4 & h5 & E & (M1 & M2 & M3 & M4 & M5) & A).
    apply hyphenated_inj in E as (-> & -> & -> & -> & ->); try congruence.
    rewrite Forall_forall in A. rewrite (A c Hin) in Hc. discriminate.
Qed.

(** The amended format at the key of the specification's example, which is
    a canonical UUID, and at a key with an uppercase letter in its first
    group. *)
Lemma validateKey_format_witness :
  accepts validateKey (Some (lit "12345678-1234-1234-1234-123456789012")) = true /\
  accepts validateKey (Some (lit "1234567A-1234-1234-1234-123456789012")) = false.
Proof.
  destruct validateKey_format as (_ & Huuid & Hrej).
  split.
  - apply Huuid.
    exists (lit "12345678"), (lit "1234"), (lit "1234"), (lit "1234"),
      (lit "123456789012").
    split; [reflexivity|]. split; [repeat split|].
    repeat constructor.
  - apply (Hrej (lit "1234567A") (lit "1234") (lit "1234") (lit "1234")
             (lit "123456789012") (cu "A")).
    + repeat split.
    + simpl. auto 10.
    + reflexivity.
Defined.

(** C2 as stated fails: the key made of the letter [z] is not a canonical
    UUID, [z] being no hexadecimal digit, and [validateKey] accepts it. *)
Lemma validateKey_accepts_non_hex :
  accepts validateKey (Some (lit "zzzzzzzz-zzzz-zzzz-zzzz-zzzzzzzzzzzz")) = true /\
  ~ canonical_uuid (lit "zzzzzzzz-zzzz-zzzz-zzzz-zzzzzzzzzzzz").
Proof.
  split; [vm_compute; reflexivity|].
  intros (g1 & g2 & g3 & g4 & g5 & E & (L1 & _) & A).
  destruct g1 as [|c g1]; [discriminate|].
  unfold hyphenated in E. simpl in E. injection E as <- _.
  inversion A; subst. discriminate.
Qed.

(** ** The type of what the validators return *)

(** C6 fails on the code, whose documentation promises a boolean: on the
    valid id ["abc"] [validateId] returns the match array, on the invalid
    id ["a!b"] it returns [null], and [validateKey] does the same on a
    valid and on an invalid key; none of the four results is a boolean. *)
Theorem validators_return_exec_result :
  validateId (Some (lit "abc")) = VMatchArray (lit "abc") /\
  validateId (Some (lit "a!b")) = VNull /\
  validateKey (Some (lit "12345678-1234-1234-1234-123456789012"))
    = VMatchArray (lit "12345678-1234-1234-1234-123456789012") /\
  validateKey (Some (lit "not-a-uuid")) = VNull /\
  is_boolean (validateId (Some (lit "abc"))) = false /\
  is_boolean (validateId (Some (lit "a!b"))) = false /\
  is_boolean (validateKey (Some (lit "12345678-1234-1234-1234-123456789012")))
    = false /\
  is_boolean (validateKey (Some (lit "not-a-uuid"))) = false.
Proof. repeat split; vm_compute; reflexivity. Qed.

(** The same on every string that is not empty; only the absent and the
    empty argument give a boolean, [true]. *)
Lemma validators_boolean_only_when_empty (s : jsstring) :
  s <> [] ->
  is_boolean (validateId (Some s)) = false /\
  is_boolean (validateKey (Some s)) = false.
Proof.
  intros H.
  rewrite (validateId_nonempty H), (validateKey_nonempty H).
  split; apply exec_not_boolean.
Qed.

(** ** Joining buffers *)

Module JoinFacts.

Lemma fold_byteLength buffers : forall acc,
  fold_left (fun sum buffer => (sum + byteLength buffer)%nat) buffers acc
  = (acc + list_sum (map byteLength buffers))%nat.
Proof.
  induction buffers as [|b buffers IH]; intros acc; simpl.
  - lia.
  - rewrite IH. lia.
Qed.

(** Writing a buffer over the first of the zero bytes that follow what has
    been written so far. *)
Lemma set_after_done (done buffer : ArrayBuffer) n :
  Uint8Array_set (done ++ new_Uint8Array (byteLength buffer + n)) buffer
    (length done)
  = Normal ((done ++ buffer) ++ new_Uint8Array n).
Proof.
  unfold Uint8Array_set, new_Uint8Array, byteLength.
  rewrite length_app, repeat_length.
  replace (length buffer + length done <=? length done + (length buffer + n))%nat
    with true by (symmetry; apply Nat.leb_le; lia).
  f_equal.
  rewrite firstn_app, firstn_all, Nat.sub_diag, firstn_O, app_nil_r.
  rewrite skipn_app, skipn_all2 by lia.
  replace (length done + length buffer - length done)%nat
    with (length buffer) by lia.
  rewrite repeat_app, skipn_app, repeat_length, Nat.sub_diag.
  rewrite skipn_all2 by (rewrite repeat_length; lia).
  simpl. rewrite <- app_assoc. reflexivity.
Qed.

(** The loop invariant: [tmpArray] is what has been copied followed by
    zeros for what remains, and [currPos] is the length of the former. *)
Lemma join_loop_invariant buffers : forall done : ArrayBuffer,
  join_loop buffers
    (done ++ new_Uint8Array (list_sum (map byteLength buffers)))
    (length done)
  = Normal (done ++ concat buffers).
Proof.
  induction buffers as [|b buffers IH]; intros done; simpl.
  - reflexivity.
  - rewrite set_after_done. simpl.
    replace (length done + byteLength b)%nat with (length (done ++ b))
      by (rewrite length_app; reflexivity).
    rewrite IH, <- app_assoc. reflexivity.
Qed.

End JoinFacts.

(** C5: [joinArrayBuffers] returns, without throwing, the concatenation of
    the buffers in the order of the list, nothing added between or around
    them, and the length of the result is the sum of their lengths. *)
Theorem joinArrayBuffers_concat (buffers : list ArrayBuffer) :
  joinArrayBuffers buffers = Normal (concat buffers) /\
  byteLength (concat buffers) = list_sum (map byteLength buffers).
Proof.
  split.
  - unfold joinArrayBuffers.
    rewrite JoinFacts.fold_byteLength. simpl.
    apply (JoinFacts.join_loop_invariant buffers []).
  - unfold byteLength. induction buffers as [|b buffers IH]; simpl.
    + reflexivity.
    + rewrite length_app, IH. reflexivity.
Qed.

(** ** Random identifiers *)

Module RandomFacts.

Lemma firstn_repeat (A : Type) (x : A) : forall n m,
  firstn n (repeat x m) = repeat x (Nat.min n m).
Proof.
  induction n as [|n IH]; intros [|m]; simpl; try reflexivity.
  rewrite IH. reflexivity.
Qed.

Lemma forallb_firstn (A : Type) (f : A -> bool) : forall n l,
  forallb f l = true -> forallb f (firstn n l) = true.
Proof.
  induction n as [|n IH]; intros [|a l]; simpl; try reflexivity.
  intros H. apply andb_true_iff in H as [Ha Hl].
  rewrite Ha, (IH _ Hl). reflexivity.
Qed.

Lemma forallb_repeat (A : Type) (f : A -> bool) x n :
  f x = true -> forallb f (repeat x n) = true.
Proof.
  intros H. induction n as [|n IH]; simpl; [reflexivity|].
  rewrite H, IH. reflexivity.
Qed.

(** The padding of [randomId] is nineteen times the character [0]. *)
Lemma padding_zeros : lit "0000000000000000000" = repeat (cu "0") 19.
Proof. reflexivity. Qed.

(** [randomId] in terms of the digits that follow ["0."]. *)
Lemma randomId_digits (r : jsstring) :
  (2 <= length r)%nat ->
  randomId r
  = firstn 16 (skipn 2 r) ++ repeat (cu "0") (16 - length (skipn 2 r)).
Proof.
  intros H. unfold randomId, substr.
  rewrite padding_zeros, skipn_app.
  replace (2 - length r)%nat with 0%nat by lia.
  rewrite skipn_O, firstn_app, firstn_repeat.
  f_equal. f_equal. lia.
Qed.

End RandomFacts.

(** C7: whenever [Math.random().toString(36)] is the radix 36 rendering of
    a number of [0, 1), [randomId] returns exactly 16 characters of
    [0-9a-z]: the first 16 digits after ["0."], completed with the filler
    character [0] when there are fewer than 16 of them. *)
Theorem randomId_sixteen (r : jsstring) :
  is_random36 r = true ->
  length (randomId r) = 16%nat /\
  forallb is_digit36 (randomId r) = true /\
  randomId r
  = firstn 16 (skipn 2 r) ++ repeat (cu "0") (16 - length (skipn 2 r)).
Proof.
  intros H.
  destruct r as [|z [|dot [|d ds]]]; try discriminate.
  - simpl in H. apply N.eqb_eq in H as ->. repeat split.
  - assert (Hd : forallb is_digit36 (d :: ds) = true).
    { unfold is_random36 in H.
      apply andb_true_iff in H as [_ H]. exact H. }
    rewrite RandomFacts.randomId_digits by (simpl; lia).
    change (skipn 2 (z :: dot :: d :: ds)) with (d :: ds).
    split; [|split].
    + rewrite length_app, length_firstn, repeat_length. lia.
    + rewrite forallb_app, RandomFacts.forallb_firstn by assumption.
      rewrite RandomFacts.forallb_repeat by reflexivity. reflexivity.
    + reflexivity.
Qed.

(** The theorem at the rendering ["0.4fzyo82mvyr"], eleven digits, which
    five filler characters complete. *)
Lemma randomId_sixteen_witness :
  is_random36 (lit "0.4fzyo82mvyr") = true /\
  length (randomId (lit "0.4fzyo82mvyr")) = 16%nat /\
  forallb is_digit36 (randomId (lit "0.4fzyo82mvyr")) = true /\
  randomId (lit "0.4fzyo82mvyr") = lit "4fzyo82mvyr00000".
Proof.
  split; [reflexivity|].
  destruct (randomId_sixteen (lit "0.4fzyo82mvyr") eq_refl) as (L & D & E).
  split; [exact L|]. split; [exact D|]. rewrite E. reflexivity.
Defined.

(** C10: the rendering of zero is ["0"], for which [randomToken] returns
    the empty string; and two renderings give tokens of different lengths,
    so the length of a token is neither positive nor fixed. *)
Theorem randomToken_may_be_empty :
  is_random36 (lit "0") = true /\
  randomToken (lit "0") = [] /\
  exists r1 r2,
    is_random36 r1 = true /\ is_random36 r2 = true /\
    length (randomToken r1) <> length (randomToken r2).
Proof.
  split; [reflexivity|]. split; [reflexivity|].
  exists (lit "0.4fzyo82mvyr"), (lit "0.i").
  split; [reflexivity|]. split; [reflexivity|].
  simpl. discriminate.
Qed.

(** ** The browser probe and the chunk size *)

(** C8, as amended: where the global [window] is bound to an object, the
    module loads, and [util.browser] is one of the four names, chosen by the
    first of [mozRTCPeerConnection], [webkitRTCPeerConnection] and
    [RTCPeerConnection] that the global object has, in that order, and
    ["Unsupported"] when it has none; it is computed when the module is
    loaded, and a later change of the globals does not change it. *)
Theorem browser_probe (g : window_binding) (w : Window) :
  g = WindowObject w ->
  exists page : Page,
    require_module g = Normal page /\
    In (read_browser page)
       [lit "Firefox"; lit "Chrome"; lit "Supported"; lit "Unsupported"] /\
    (ToBoolean (mozRTCPeerConnection w) = true ->
     read_browser page = lit "Firefox") /\
    (ToBoolean (mozRTCPeerConnection w) = false ->
     ToBoolean (webkitRTCPeerConnection w) = true ->
     read_browser page = lit "Chrome") /\
    (ToBoolean (mozRTCPeerConnection w) = false ->
     ToBoolean (webkitRTCPeerConnection w) = false ->
     ToBoolean (RTCPeerConnection w) = true ->
     read_browser page = lit "Supported") /\
    (ToBoolean (mozRTCPeerConnection w) = false ->
     ToBoolean (webkitRTCPeerConnection w) = false ->
     ToBoolean (RTCPeerConnection w) = false ->
     read_browser page = lit "Unsupported") /\
    (forall w' : Window,
       read_browser (set_window w' page) = read_browser page).
Proof.
  intros ->. exists (load_module w).
  split; [reflexivity|].
  unfold read_browser, load_module, set_window, new_Util, detect_browser.
  cbn [exports browser].
  destruct (ToBoolean (mozRTCPeerConnection w));
    destruct (ToBoolean (webkitRTCPeerConnection w));
    destruct (ToBoolean (RTCPeerConnection w));
    repeat split; intros; try discriminate; try reflexivity;
    cbn [In]; auto.
Qed.

(** The probe in a page that has the WebKit and the standard constructor
    and not the Firefox one; the globals are then all removed. *)
Lemma browser_probe_witness :
  let w := {| mozRTCPeerConnection := VUndefined;
              webkitRTCPeerConnection := VFunction;
              RTCPeerConnection := VFunction |} in
  let none := {| mozRTCPeerConnection := VUndefined;
                 webkitRTCPeerConnection := VUndefined;
                 RTCPeerConnection := VUndefined |} in
  exists page : Page,
    require_module (WindowObject w) = Normal page /\
    read_browser page = lit "Chrome" /\
    read_browser (set_window none page) = lit "Chrome".
Proof.
  intros w none.
  destruct (browser_probe (g := WindowObject w) eq_refl)
    as (page & Hload & _ & _ & Hchrome & _ & _ & Hkeep).
  exists page. split; [exact Hload|]. split.
  - apply Hchrome; reflexivity.
  - rewrite Hkeep. apply Hchrome; reflexivity.
Defined.

(** C8 as stated fails: in a runtime where the identifier [window] is not
    bound, as in plain Node, the constructor throws a [ReferenceError] when
    the module is loaded, and there is no [util.browser], not even
    ["Unsupported"]. *)
Lemma module_load_throws_without_window :
  require_module WindowUnbound = Throw "ReferenceError" /\
  forall page : Page, require_module WindowUnbound <> Normal page.
Proof. split; [reflexivity | discriminate]. Qed.

(** C9: the maximum chunk size, 16300, is strictly below the limit of
    16 KiB = 16384 bytes, which leaves 84 bytes for the metadata. *)
Theorem maxChunkSize_below_frame_limit (w : Window) :
  (maxChunkSize (new_Util w) < frame_limit)%Z /\
  frame_limit = 16384%Z /\
  (frame_limit - maxChunkSize (new_Util w) = 84)%Z.
Proof. repeat split. Qed.

(** ** The message enumerations *)

Module EnumFacts.

Lemma jsstring_eqb_eq a b : jsstring_eqb a b = true <-> a = b.
Proof.
  unfold jsstring_eqb. destruct (list_eq_dec N.eq_dec a b); split;
    intros; congruence.
Qed.

Lemma enum_items_keys names : forall i, map key (enum_items names i) = names.
Proof.
  induction names as [|n names IH]; intros i; simpl; [|rewrite IH];
    reflexivity.
Qed.

(** A name of the array resolves to the item of its first position [i],
    whose value is [2 ^ i]. *)
Lemma enum_items_find names : forall i0 name,
  In name names ->
  exists i,
    nth_error names i = Some name /\
    find (fun item => jsstring_eqb (key item) name) (enum_items names i0)
    = Some {| key := name; value_of := 2 ^ N.of_nat (i0 + i) |}.
Proof.
  induction names as [|n names IH]; intros i0 name Hin; [destruct Hin|].
  simpl. destruct (jsstring_eqb n name) eqn:E.
  - apply jsstring_eqb_eq in E as ->.
    exists 0%nat. rewrite Nat.add_0_r. split; reflexivity.
  - destruct Hin as [-> | Hin].
    + assert (jsstring_eqb name name = true) by (apply jsstring_eqb_eq; reflexivity).
      congruence.
    + destruct (IH (S i0) name Hin) as (i & Hnth & Hfind).
      exists (S i). split; [assumption|].
      rewrite Hfind.
      replace (i0 + S i)%nat with (S i0 + i)%nat by lia. reflexivity.
Qed.

Lemma enum_items_find_none names : forall i0 name,
  ~ In name names ->
  find (fun item => jsstring_eqb (key item) name) (enum_items names i0) = None.
Proof.
  induction names as [|n names IH]; intros i0 name Hin; [reflexivity|].
  simpl. destruct (jsstring_eqb n name) eqn:E.
  - apply jsstring_eqb_eq in E. exfalso. apply Hin. left. assumption.
  - apply IH. intros H. apply Hin. right. assumption.
Qed.

Lemma NoDup_map_injective (A B : Type) (f : A -> B) (l : list A) :
  NoDup (map f l) -> forall a b, In a l -> In b l -> f a = f b -> a = b.
Proof.
  induction l as [|x l IH]; simpl; intros Hnd a b Ha Hb E; [destruct Ha|].
  inversion Hnd as [|? ? Hx Hl]; subst.
  destruct Ha as [-> | Ha], Hb as [-> | Hb].
  - reflexivity.
  - exfalso. apply Hx. rewrite E. apply in_map. assumption.
  - exfalso. apply Hx. rewrite <- E. apply in_map. assumption.
  - apply IH; assumption.
Qed.

Lemma client_values_distinct : NoDup (map value_of clientMessages).
Proof.
  assert (E : nodup N.eq_dec (map value_of clientMessages)
              = map value_of clientMessages) by (vm_compute; reflexivity).
  rewrite <- E. apply NoDup_nodup.
Qed.

Lemma server_values_distinct : NoDup (map value_of serverMessages).
Proof.
  assert (E : nodup N.eq_dec (map value_of serverMessages)
              = map value_of serverMessages) by (vm_compute; reflexivity).
  rewrite <- E. apply NoDup_nodup.
Qed.

Lemma client_keys_distinct : NoDup (map key clientMessages).
Proof.
  assert (E : nodup (list_eq_dec N.eq_dec) (map key clientMessages)
              = map key clientMessages) by (vm_compute; reflexivity).
  rewrite <- E. apply NoDup_nodup.
Qed.

Lemma server_keys_distinct : NoDup (map key serverMessages).
Proof.
  assert (E : nodup (list_eq_dec N.eq_dec) (map key serverMessages)
              = map key serverMessages) by (vm_compute; reflexivity).
  rewrite <- E. apply NoDup_nodup.
Qed.

(** A name without the separator is read as a property. *)
Lemma Enum_get_plain members e name :
  indexOf name separator = None ->
  Enum_get members e name = Normal (Enum_property members e name).
Proof. unfold Enum_get. intros ->. reflexivity. Qed.

(** An item that the property read returns is an item of the enumeration
    with the key that was asked for. *)
Lemma Enum_property_item members e name item :
  Enum_property members e name = PItem item -> In item e /\ key item = name.
Proof.
  unfold Enum_property.
  destruct (find (fun item => jsstring_eqb (key item) name) e) as [i|] eqn:F.
  - intros H. injection H as <-.
    apply find_some in F as [Hin Hk].
    apply jsstring_eqb_eq in Hk. auto.
  - destruct (members name); discriminate.
Qed.

(** None of the names of the two families holds the separator. *)
Lemma family_names_plain family name :
  family = clientMessages \/ family = serverMessages ->
  In name (map key family) -> indexOf name separator = None.
Proof.
  intros [-> | ->] Hin;
    repeat (destruct Hin as [<- | Hin]; [vm_compute; reflexivity|]);
    destruct Hin.
Qed.

End EnumFacts.

(** C4, as amended: the two enumerations hold the 14 client names and the
    13 server names of section 3.  In either family a listed name resolves
    to the item of that name, whose numeric code is 2 to the power of the
    position of the name in the family, and two different listed names
    resolve to different items with different codes.  A name that is not
    in the family, that does not hold the separator [" | "] and that is not
    a property of the enumeration object itself looks up as [undefined],
    and not as an [UnknownMessageKind] failure. *)
Theorem message_kinds_lookup :
  map key clientMessages = spec_client_names /\
  map key serverMessages = spec_server_names /\
  length spec_client_names = 14%nat /\
  length spec_server_names = 13%nat /\
  forall (members : jsstring -> bool) (family : Enum),
    family = clientMessages \/ family = serverMessages ->
    (forall name, In name (map key family) ->
       exists i,
         nth_error (map key family) i = Some name /\
         Enum_get members family name
         = Normal (PItem {| key := name; value_of := 2 ^ N.of_nat i |})) /\
    (forall name1 name2 item1 item2,
       In name1 (map key family) -> In name2 (map key family) ->
       Enum_get members family name1 = Normal (PItem item1) ->
       Enum_get members family name2 = Normal (PItem item2) ->
       name1 <> name2 ->
       item1 <> item2 /\ value_of item1 <> value_of item2) /\
    (forall name,
       ~ In name (map key family) ->
       indexOf name separator = None ->
       members name = false ->
       Enum_get members family name = Normal PUndefined).
Proof.
  split; [reflexivity|]. split; [reflexivity|].
  split; [reflexivity|]. split; [reflexivity|].
  intros members family Hfam.
  assert (Hplain := fun name => @EnumFacts.family_names_plain family name Hfam).
  assert (Hitems : exists names, family = enum_items names 0).
  { destruct Hfam as [-> | ->]; eexists; reflexivity. }
  assert (Hvalues : NoDup (map value_of family)).
  { destruct Hfam as [-> | ->];
      [apply EnumFacts.client_values_distinct
      | apply EnumFacts.server_values_distinct]. }
  destruct Hitems as (names & ->).
  rewrite EnumFacts.enum_items_keys in *.
  split; [|split].
  - intros name Hin.
    destruct (EnumFacts.enum_items_find names 0 name Hin) as (i & Hnth & Hfind).
    exists i. split; [assumption|].
    rewrite EnumFacts.Enum_get_plain by (apply Hplain; assumption).
    unfold Enum_property. rewrite Hfind. reflexivity.
  - intros name1 name2 item1 item2 Hin1 Hin2 H1 H2 Hne.
    rewrite EnumFacts.Enum_get_plain in H1 by (apply Hplain; assumption).
    rewrite EnumFacts.Enum_get_plain in H2 by (apply Hplain; assumption).
    injection H1 as H1. injection H2 as H2.
    apply EnumFacts.Enum_property_item in H1 as [Hi1 Hk1].
    apply EnumFacts.Enum_property_item in H2 as [Hi2 Hk2].
    assert (Hv : value_of item1 <> value_of item2).
    { intros E. apply Hne.
      rewrite <- Hk1, <- Hk2. f_equal.
      eapply EnumFacts.NoDup_map_injective; eassumption. }
    split; [congruence | assumption].
  - intros name Hin Hsep Hmem.
    rewrite EnumFacts.Enum_get_plain by assumption.
    unfold Enum_property.
    rewrite EnumFacts.enum_items_find_none by assumption.
    rewrite Hmem. reflexivity.
Qed.

(** The lookup on an object whose other properties are [get] and [size]:
    at [PING], the thirteenth client name, of code [2 ^ 12], and at [OPEN]
    among the client names, where it is not. *)
Lemma message_kinds_lookup_witness :
  let members := fun name =>
    jsstring_eqb name (lit "get") || jsstring_eqb name (lit "size") in
  Enum_get members clientMessages (lit "PING")
  = Normal (PItem {| key := lit "PING"; value_of := 4096 |}) /\
  Enum_get members clientMessages (lit "OPEN") = Normal PUndefined.
Proof.
  intros members.
  destruct message_kinds_lookup as (_ & _ & _ & _ & H).
  destruct (H members clientMessages (or_introl eq_refl)) as (Hin & _ & Hout).
  split.
  - destruct (Hin (lit "PING")) as (i & Hnth & Hget).
    + vm_compute. auto 20.
    + rewrite Hget. do 3 f_equal.
      assert (i = 12%nat) as ->; [|reflexivity].
      do 12 (destruct i as [|i]; [discriminate Hnth|]).
      destruct i as [|i]; [reflexivity|].
      destruct i as [|i]; [discriminate Hnth|].
      destruct i; discriminate Hnth.
  - apply Hout.
    + vm_compute. intuition discriminate.
    + reflexivity.
    + reflexivity.
Defined.

(** C4 as stated fails: [SEND_OFFER | SEND_ANSWER] is in neither family,
    and its lookup among the client messages succeeds, with a new item of
    code 3, whatever the other properties of the object are; [NOT_A_KIND]
    is in neither family, and where the object has no property of that
    name its lookup gives [undefined].  Neither fails with
    [UnknownMessageKind]. *)
Lemma lookup_outside_family_does_not_fail :
  (~ In (lit "SEND_OFFER | SEND_ANSWER") (spec_client_names ++ spec_server_names) /\
   forall members,
     Enum_get members clientMessages (lit "SEND_OFFER | SEND_ANSWER")
     = Normal (PItem {| key := lit "SEND_OFFER | SEND_ANSWER"; value_of := 3 |})) /\
  (~ In (lit "NOT_A_KIND") (spec_client_names ++ spec_server_names) /\
   forall members,
     members (lit "NOT_A_KIND") = false ->
     Enum_get members clientMessages (lit "NOT_A_KIND") = Normal PUndefined /\
     Enum_get members serverMessages (lit "NOT_A_KIND") = Normal PUndefined).
Proof.
  split; split.
  - vm_compute. intuition discriminate.
  - intros members. reflexivity.
  - vm_compute. intuition discriminate.
  - intros members Hm.
    assert (E : forall e : Enum,
              find (fun item => jsstring_eqb (key item) (lit "NOT_A_KIND")) e
              = None ->
              Enum_get members e (lit "NOT_A_KIND") = Normal PUndefined).
    { intros e F.
      rewrite EnumFacts.Enum_get_plain by reflexivity.
      unfold Enum_property. rewrite F, Hm. reflexivity. }
    split; apply E; reflexivity.
Qed.

(** * Further properties of the code *)

(** ** Binary strings and buffers *)

Module BinaryFacts.

Lemma to_uint8_to_N n : Byte.to_N (to_uint8 n) = (n mod 256)%N.
Proof.
  unfold to_uint8. destruct (Byte.of_N (n mod 256)) as [b|] eqn:E.
  - apply Byte.to_of_N. assumption.
  - apply Byte.of_N_None_iff in E.
    assert (n mod 256 < 256)%N by (apply N.mod_lt; discriminate). lia.
Qed.

Lemma to_uint8_of_byte b : to_uint8 (Byte.to_N b) = b.
Proof.
  unfold to_uint8.
  rewrite N.mod_small by (pose proof (Byte.to_N_bounded b); lia).
  rewrite Byte.of_to_N. reflexivity.
Qed.

Lemma land_255 c : N.land c 255 = (c mod 256)%N.
Proof. change 255%N with (N.ones 8). apply N.land_ones. Qed.

(** A store at the first of the bytes that are still zero. *)
Lemma store_after_done (done : ArrayBuffer) v n :
  Uint8Array_store (done ++ new_Uint8Array (S n)) (length done) v
  = (done ++ [to_uint8 v]) ++ new_Uint8Array n.
Proof.
  unfold Uint8Array_store, new_Uint8Array.
  rewrite length_app, repeat_length.
  replace (length done <? length done + S n)%nat with true
    by (symmetry; apply Nat.ltb_lt; lia).
  rewrite firstn_app, firstn_all, Nat.sub_diag, firstn_O, app_nil_r.
  rewrite skipn_app, skipn_all2 by lia.
  replace (S (length done) - length done)%nat with 1%nat by lia.
  simpl. rewrite <- app_assoc. reflexivity.
Qed.

(** The loop invariant: the bytes of the characters read so far, then
    zeros for the others. *)
Lemma binaryString_loop_invariant binary : forall rest pre : jsstring,
  binary = pre ++ rest ->
  binaryString_loop (length rest) binary (length pre)
    (map (fun c => to_uint8 (N.land c 255)) pre ++ new_Uint8Array (length rest))
  = map (fun c => to_uint8 (N.land c 255)) binary.
Proof.
  induction rest as [|c rest IH]; intros pre E.
  - simpl. subst binary. rewrite !app_nil_r. reflexivity.
  - cbn [binaryString_loop length].
    replace (length pre <? length binary)%nat with true
      by (symmetry; apply Nat.ltb_lt; subst binary;
          rewrite length_app; simpl; lia).
    assert (Hc : charCodeAt binary (length pre) = Some c).
    { unfold charCodeAt. subst binary.
      rewrite nth_error_app2, Nat.sub_diag by lia. reflexivity. }
    rewrite Hc. cbn [and_0xff].
    replace (length pre) with
      (length (map (fun c => to_uint8 (N.land c 255)) pre)) at 2
      by apply length_map.
    rewrite store_after_done.
    specialize (IH (pre ++ [c])).
    rewrite length_app, map_app in IH. simpl in IH.
    rewrite Nat.add_1_r in IH.
    apply IH. rewrite <- app_assoc. assumption.
Qed.

Lemma binaryString_map (binary : jsstring) :
  binaryStringToArrayBuffer binary
  = map (fun c => to_uint8 (N.land c 255)) binary.
Proof.
  unfold binaryStringToArrayBuffer.
  apply (binaryString_loop_invariant (binary := binary) binary []).
  reflexivity.
Qed.

End BinaryFacts.

(** X1: [binaryStringToArrayBuffer] returns one byte per code unit of the
    string, in order, the byte at an index being the code unit there
    modulo 256; the loop writes every index and nothing else. *)
Theorem binaryStringToArrayBuffer_bytes (binary : jsstring) :
  byteLength (binaryStringToArrayBuffer binary) = length binary /\
  map Byte.to_N (binaryStringToArrayBuffer binary)
  = map (fun c => (c mod 256)%N) binary.
Proof.
  rewrite BinaryFacts.binaryString_map. split.
  - apply length_map.
  - rewrite map_map. apply map_ext. intros c.
    rewrite BinaryFacts.to_uint8_to_N, BinaryFacts.land_255.
    apply N.Div0.mod_mod.
Qed.

(** X2: the binary string that is read from some bytes converts back to
    those bytes. *)
Theorem binaryString_of_bytes_round_trip (bytes : ArrayBuffer) :
  binaryStringToArrayBuffer (binaryString_of bytes) = bytes.
Proof.
  rewrite BinaryFacts.binaryString_map. unfold binaryString_of.
  rewrite map_map. rewrite <- (map_id bytes) at 2.
  apply map_ext. intros b.
  rewrite BinaryFacts.land_255.
  rewrite N.mod_small by (pose proof (Byte.to_N_bounded b); lia).
  apply BinaryFacts.to_uint8_of_byte.
Qed.

(** X3: a string comes back from its buffer exactly when all its code
    units are below 256; a code unit above is cut to its low byte, so that
    the conversion loses it. *)
Theorem binaryString_round_trip_iff (binary : jsstring) :
  binaryString_of (binaryStringToArrayBuffer binary) = binary <->
  Forall (fun c => (c < 256)%N) binary.
Proof.
  unfold binaryString_of.
  rewrite BinaryFacts.binaryString_map, map_map.
  induction binary as [|c binary IH]; simpl.
  - split; constructor.
  - rewrite BinaryFacts.to_uint8_to_N, BinaryFacts.land_255, N.Div0.mod_mod.
    split.
    + intros E. injection E as Ec Eb. constructor.
      * rewrite <- Ec. apply N.mod_lt. discriminate.
      * apply IH. assumption.
    + intros H. inversion H; subst. f_equal.
      * apply N.mod_small. assumption.
      * apply IH. assumption.
Qed.

(** The round trip at ["abc"], and its failure at the single code unit
    256, which comes back as 0. *)
Lemma binaryString_round_trip_iff_witness :
  binaryString_of (binaryStringToArrayBuffer (lit "abc")) = lit "abc" /\
  binaryString_of (binaryStringToArrayBuffer [256%N]) <> [256%N].
Proof.
  split.
  - apply (proj2 (binaryString_round_trip_iff (lit "abc"))).
    repeat constructor.
  - intros E. apply (proj1 (binaryString_round_trip_iff [256%N])) in E.
    inversion E; subst. discriminate.
Defined.

(** ** Joining in stages *)

Module JoinStages.

Lemma join_normal (buffers : list ArrayBuffer) :
  joinArrayBuffers buffers = Normal (concat buffers).
Proof.
  unfold joinArrayBuffers.
  rewrite JoinFacts.fold_byteLength. simpl.
  apply (JoinFacts.join_loop_invariant buffers []).
Qed.

Lemma concat_without_empty (buffers : list ArrayBuffer) :
  concat (filter (fun b => negb (Nat.eqb (byteLength b) 0)) buffers)
  = concat buffers.
Proof.
  induction buffers as [|b buffers IH]; simpl; [reflexivity|].
  destruct b as [|x b]; simpl; rewrite IH; reflexivity.
Qed.

End JoinStages.

(** X4: joining a list of buffers in two stages, a first part, the rest,
    and then the two results, gives what joining the whole list gives, and
    none of the three stages throws. *)
Theorem joinArrayBuffers_staged (front back : list ArrayBuffer) :
  exists a b : ArrayBuffer,
    joinArrayBuffers front = Normal a /\
    joinArrayBuffers back = Normal b /\
    joinArrayBuffers [a; b] = Normal (a ++ b) /\
    joinArrayBuffers (front ++ back) = Normal (a ++ b).
Proof.
  exists (concat front), (concat back).
  rewrite !JoinStages.join_normal. simpl.
  rewrite concat_app, app_nil_r. repeat split.
Qed.

(** X5: buffers of length zero do not count: joining a list gives what
    joining the list without its empty buffers gives. *)
Theorem joinArrayBuffers_skips_empty (buffers : list ArrayBuffer) :
  joinArrayBuffers (filter (fun b => negb (Nat.eqb (byteLength b) 0)) buffers)
  = joinArrayBuffers buffers.
Proof.
  rewrite !JoinStages.join_normal, JoinStages.concat_without_empty.
  reflexivity.
Qed.

(** X6: converting binary strings one by one and joining the buffers gives
    the buffer of the concatenated string. *)
Theorem join_of_binaryStrings (pieces : list jsstring) :
  joinArrayBuffers (map binaryStringToArrayBuffer pieces)
  = Normal (binaryStringToArrayBuffer (concat pieces)).
Proof.
  rewrite JoinStages.join_normal, BinaryFacts.binaryString_map.
  rewrite concat_map. do 2 f_equal.
  apply map_ext. intros s. apply BinaryFacts.binaryString_map.
Qed.

(** ** More on the validators *)

Module ValidatorMore.
Import CharFacts.

Lemma lower_alnum_word c : is_lower_alnum c = true -> is_word c = true.
Proof. classes. Qed.

Lemma hyphen_word : is_word hyphen = true.
Proof. reflexivity. Qed.

Lemma render_groups_app gs1 gs2 :
  render_groups (gs1 ++ gs2) = render_groups gs1 ++ render_groups gs2.
Proof. unfold render_groups. apply flat_map_app. Qed.

(** A string of word characters that is not empty has the shape, with no
    group. *)
Lemma words_have_shape (s : jsstring) :
  s <> [] -> Forall (fun c => is_word c = true) s -> peer_id_shape s.
Proof.
  intros Hne Hall. exists s, []. simpl. rewrite app_nil_r.
  repeat split; auto.
Qed.

Lemma hyphenated_words g1 g2 g3 g4 g5 :
  grouped is_lower_alnum g1 g2 g3 g4 g5 ->
  Forall (fun c => is_word c = true) (hyphenated g1 g2 g3 g4 g5).
Proof.
  intros (_ & A).
  apply Forall_app in A as [A1 A]. apply Forall_app in A as [A2 A].
  apply Forall_app in A as [A3 A]. apply Forall_app in A as [A4 A5].
  assert (W : forall g, Forall (fun c => is_lower_alnum c = true) g ->
                        Forall (fun c => is_word c = true) g).
  { intros g Hg. eapply Forall_impl; [|exact Hg].
    intros c. apply lower_alnum_word. }
  unfold hyphenated.
  repeat (apply Forall_app; split; [auto|]; constructor; [apply hyphen_word|]).
  auto.
Qed.

End ValidatorMore.

(** X7: every key that [validateKey] accepts is an id that [validateId]
    accepts. *)
Theorem accepted_key_is_accepted_id (k : option jsstring) :
  accepts validateKey k = true -> accepts validateId k = true.
Proof.
  destruct k as [[|c s]|]; try reflexivity.
  intros H.
  apply accepts_validateKey in H; [|discriminate].
  apply accepts_validateId; [discriminate|].
  apply lang_keyPattern in H as (g1 & g2 & g3 & g4 & g5 & E & G).
  rewrite E. apply lang_peerIdPattern.
  apply ValidatorMore.words_have_shape.
  - rewrite <- E. discriminate.
  - apply ValidatorMore.hyphenated_words. assumption.
Qed.

(** The theorem at the key of the example. *)
Lemma accepted_key_is_accepted_id_witness :
  accepts validateKey (Some (lit "12345678-1234-1234-1234-123456789012")) = true /\
  accepts validateId (Some (lit "12345678-1234-1234-1234-123456789012")) = true.
Proof.
  split; [reflexivity|].
  apply (accepted_key_is_accepted_id
           (Some (lit "12345678-1234-1234-1234-123456789012"))).
  reflexivity.
Defined.

(** X8: a key that [validateKey] accepts and that is not empty has exactly
    36 characters, with hyphens at the offsets 8, 13, 18 and 23. *)
Theorem accepted_key_layout (s : jsstring) :
  s <> [] ->
  accepts validateKey (Some s) = true ->
  length s = 36%nat /\
  nth_error s 8 = Some hyphen /\ nth_error s 13 = Some hyphen /\
  nth_error s 18 = Some hyphen /\ nth_error s 23 = Some hyphen.
Proof.
  intros Hne H.
  apply (accepts_validateKey Hne) in H.
  apply lang_keyPattern in H
    as (g1 & g2 & g3 & g4 & g5 & -> & (L1 & L2 & L3 & L4 & L5) & _).
  unfold hyphenated. split.
  - repeat (rewrite length_app; simpl). lia.
  - repeat match goal with
           | L : length ?g = S _ |- _ =>
               destruct g; [discriminate L | simpl in L; injection L as L]
           | L : length ?g = O |- _ =>
               destruct g; [clear L | discriminate L]
           end.
    repeat split.
Qed.

Lemma accepted_key_layout_witness :
  length (lit "0a1b2c3d-4e5f-6789-abcd-ef0123456789") = 36%nat /\
  nth_error (lit "0a1b2c3d-4e5f-6789-abcd-ef0123456789") 8 = Some hyphen.
Proof.
  destruct (accepted_key_layout
              (s := lit "0a1b2c3d-4e5f-6789-abcd-ef0123456789"))
    as (L & H8 & _).
  - discriminate.
  - reflexivity.
  - split; [exact L | exact H8].
Defined.

(** X9: on an id without a space the check is on the characters alone:
    [validateId] accepts it exactly when all its characters are
    alphanumeric, underscores or hyphens. *)
Theorem validateId_without_space (s : jsstring) :
  ~ In space s ->
  (accepts validateId (Some s) = true <->
   Forall (fun c => is_word c = true) s).
Proof.
  intros Hsp. destruct s as [|c s].
  - split; [constructor | reflexivity].
  - rewrite accepts_validateId by discriminate.
    rewrite lang_peerIdPattern. split.
    + intros H. apply shape_allowed in H.
      rewrite Forall_forall in H |- *.
      intros x Hx. destruct (H x Hx) as [Hw | ->]; [assumption | contradiction].
    + apply ValidatorMore.words_have_shape. discriminate.
Qed.

Lemma validateId_without_space_witness :
  accepts validateId (Some (lit "__peer--01__")) = true /\
  ~ Forall (fun c => is_word c = true) (lit "peer.01").
Proof.
  split.
  - apply validateId_without_space.
    + simpl. intuition discriminate.
    + repeat constructor.
  - intros H.
    apply (proj2 (validateId_without_space (lit "peer.01")
                    ltac:(simpl; intuition discriminate))) in H.
    discriminate H.
Defined.

(** X10: an accepted id that is not empty stays accepted when a separator
    and a non-empty alphanumeric segment are appended to it. *)
Theorem validateId_append_group (s seg : jsstring) (sep : code_unit) :
  s <> [] ->
  accepts validateId (Some s) = true ->
  is_separator sep = true ->
  seg <> [] ->
  Forall (fun c => is_alnum c = true) seg ->
  accepts validateId (Some (s ++ sep :: seg)) = true.
Proof.
  intros Hne H Hsep Hseg Hall.
  apply (accepts_validateId Hne) in H.
  apply accepts_validateId; [destruct s; [contradiction | discriminate]|].
  apply lang_peerIdPattern in H as (seg0 & gs & -> & H0 & Hw & Hgs).
  apply lang_peerIdPattern.
  exists seg0, (gs ++ [(sep, seg)]). split; [|split; [|split]]; auto.
  - rewrite ValidatorMore.render_groups_app, <- app_assoc. simpl.
    rewrite app_nil_r. reflexivity.
  - apply Forall_app. split; [assumption|].
    constructor; [|constructor]. repeat split; assumption.
Qed.

Lemma validateId_append_group_witness :
  accepts validateId (Some (lit "room_1" ++ cu " " :: lit "alice")) = true.
Proof.
  apply validateId_append_group.
  - discriminate.
  - reflexivity.
  - reflexivity.
  - discriminate.
  - repeat constructor.
Defined.

(** X11: neither validator ever returns [false]: the result is [true]
    exactly for the absent and the empty argument, and for any other
    argument it is [null] or the match array of the argument itself. *)
Theorem validators_never_return_false (a : option jsstring) :
  validateId a <> VBool false /\ validateKey a <> VBool false /\
  (validateId a = VBool true <-> a = None \/ a = Some []) /\
  (validateKey a = VBool true <-> a = None \/ a = Some []) /\
  (forall s, a = Some s -> s <> [] ->
     (validateId a = VNull \/ validateId a = VMatchArray s) /\
     (validateKey a = VNull \/ validateKey a = VMatchArray s)).
Proof.
  destruct a as [[|c s]|].
  - split; [discriminate|]. split; [discriminate|].
    split; [split; auto|]. split; [split; auto|].
    intros s E Hs. injection E as <-. contradiction.
  - rewrite validateId_nonempty, validateKey_nonempty by discriminate.
    unfold exec_anchored.
    split; [destruct (matches peerIdPattern (c :: s)); discriminate|].
    split; [destruct (matches keyPattern (c :: s)); discriminate|].
    split; [|split].
    + split; [destruct (matches peerIdPattern (c :: s)); discriminate|].
      intros [E | E]; discriminate E.
    + split; [destruct (matches keyPattern (c :: s)); discriminate|].
      intros [E | E]; discriminate E.
    + intros s' E _. injection E as <-.
      destruct (matches peerIdPattern (c :: s)), (matches keyPattern (c :: s));
        auto.
  - split; [discriminate|]. split; [discriminate|].
    split; [split; auto|]. split; [split; auto|].
    intros s E. discriminate E.
Qed.

Lemma validators_never_return_false_witness :
  validateId (Some (lit "a!b")) = VNull /\
  validateKey (Some (lit "a!b")) = VNull.
Proof.
  destruct (validators_never_return_false (Some (lit "a!b")))
    as (_ & _ & _ & _ & H).
  destruct (H (lit "a!b") eq_refl ltac:(discriminate)) as [[I | I] [K | K]].
  - split; assumption.
  - discriminate K.
  - discriminate I.
  - discriminate I.
Defined.

(** ** More on the random identifiers *)

Module RandomMore.

Lemma skipn_repeat (A : Type) (x : A) : forall k n,
  skipn k (repeat x n) = repeat x (n - k).
Proof.
  induction k as [|k IH]; intros [|n]; simpl; try reflexivity.
  apply IH.
Qed.

End RandomMore.

(** X12: whatever string [toString(36)] returns, a rendering or not,
    [randomId] returns exactly 16 code units: the first 16 of what
    [randomToken] returns for that string, completed with the character
    [0]. *)
Theorem randomId_from_token (r : jsstring) :
  length (randomId r) = 16%nat /\
  randomId r
  = firstn 16 (randomToken r)
      ++ repeat (cu "0") (16 - length (randomToken r)).
Proof.
  assert (E : randomId r
              = firstn 16 (randomToken r)
                  ++ repeat (cu "0") (16 - length (randomToken r))).
  { unfold randomId, randomToken, substr.
    rewrite RandomFacts.padding_zeros, skipn_app, firstn_app.
    rewrite RandomMore.skipn_repeat, RandomFacts.firstn_repeat.
    do 2 f_equal. rewrite length_skipn. lia. }
  split; [|exact E].
  rewrite E, length_app, length_firstn, repeat_length. lia.
Qed.

(** X13: for a rendering of a number of [0, 1), [randomToken] returns the
    digits that follow ["0."], all of [0-9a-z], and it returns the empty
    string for the rendering ["0"] of zero only. *)
Theorem randomToken_digits (r : jsstring) :
  is_random36 r = true ->
  forallb is_digit36 (randomToken r) = true /\
  (randomToken r = [] <-> r = lit "0") /\
  (r = lit "0" \/ r = lit "0." ++ randomToken r).
Proof.
  intros H.
  destruct r as [|z [|dot [|d ds]]]; try discriminate.
  - simpl in H. apply N.eqb_eq in H as ->.
    repeat split; auto.
  - unfold is_random36 in H.
    apply andb_true_iff in H as [H Hd].
    apply andb_true_iff in H as [Hz Hdot].
    apply N.eqb_eq in Hz as ->. apply N.eqb_eq in Hdot as ->.
    split; [exact Hd|]. split.
    + split; discriminate.
    + right. reflexivity.
Qed.

Lemma randomToken_digits_witness :
  forallb is_digit36 (randomToken (lit "0.4fzyo82mvyr")) = true /\
  lit "0.4fzyo82mvyr" = lit "0." ++ randomToken (lit "0.4fzyo82mvyr").
Proof.
  destruct (randomToken_digits (lit "0.4fzyo82mvyr") eq_refl)
    as (D & _ & [E | E]).
  - discriminate E.
  - split; [exact D | exact E].
Defined.

(** ** More on the browser probe *)

(** X14: each name tells which constructors the page has: ["Firefox"]
    exactly when [mozRTCPeerConnection] is there, ["Chrome"] exactly when
    it is not and [webkitRTCPeerConnection] is, ["Supported"] exactly when
    only [RTCPeerConnection] is, ["Unsupported"] exactly when none is. *)
Theorem browser_name_iff (w : Window) :
  (read_browser (load_module w) = lit "Firefox" <->
   ToBoolean (mozRTCPeerConnection w) = true) /\
  (read_browser (load_module w) = lit "Chrome" <->
   ToBoolean (mozRTCPeerConnection w) = false /\
   ToBoolean (webkitRTCPeerConnection w) = true) /\
  (read_browser (load_module w) = lit "Supported" <->
   ToBoolean (mozRTCPeerConnection w) = false /\
   ToBoolean (webkitRTCPeerConnection w) = false /\
   ToBoolean (RTCPeerConnection w) = true) /\
  (read_browser (load_module w) = lit "Unsupported" <->
   ToBoolean (mozRTCPeerConnection w) = false /\
   ToBoolean (webkitRTCPeerConnection w) = false /\
   ToBoolean (RTCPeerConnection w) = false).
Proof.
  unfold read_browser, load_module, new_Util, detect_browser.
  cbn [exports browser].
  destruct (ToBoolean (mozRTCPeerConnection w));
    destruct (ToBoolean (webkitRTCPeerConnection w));
    destruct (ToBoolean (RTCPeerConnection w));
    vm_compute; intuition discriminate.
Qed.

Lemma browser_name_iff_witness :
  read_browser
    (load_module {| mozRTCPeerConnection := VUndefined;
                    webkitRTCPeerConnection := VUndefined;
                    RTCPeerConnection := VFunction |})
  = lit "Supported".
Proof.
  apply (proj1 (proj2 (proj2 (browser_name_iff _)))).
  repeat split.
Defined.

(** ** More on the message enumerations *)

(** X15: the two families share no name: no name of the list of the client
    messages is a name of the list of the server messages. *)
Theorem families_share_no_name (name : jsstring) :
  In name (map key clientMessages) -> ~ In name (map key serverMessages).
Proof.
  intros Hc Hs.
  repeat (destruct Hc as [<- | Hc];
          [vm_compute in Hs; intuition discriminate|]).
  destruct Hc.
Qed.

Lemma families_share_no_name_witness :
  ~ In (lit "PING") (map key serverMessages).
Proof.
  apply families_share_no_name. vm_compute. auto 20.
Defined.

(** X16: a numeric code does not tell the family: the server message at
    any position has the code of the client message at that position,
    which has another name. *)
Theorem server_code_is_a_client_code (i : nat) (s : EnumItem) :
  nth_error serverMessages i = Some s ->
  exists c, nth_error clientMessages i = Some c /\
            value_of c = value_of s /\ key c <> key s.
Proof.
  intros H.
  do 13 (destruct i as [|i];
         [injection H as <-; eexists; split; [reflexivity|];
          split; [reflexivity | discriminate]|]).
  destruct i; discriminate H.
Qed.

Lemma server_code_is_a_client_code_witness :
  exists c, nth_error clientMessages 0 = Some c /\
            value_of c = 1%N /\ key c <> lit "OPEN".
Proof.
  apply (server_code_is_a_client_code 0
           (s := {| key := lit "OPEN"; value_of := 1 |})).
  reflexivity.
Defined.
